(** * Command combinators of package [tea] (commands.go)

    A command ([Cmd], Go type [func() Msg]) is a deferred computation with
    side effects that yields one message or none.  It is embedded as a
    state-passing function on a type [World] standing for everything a Go
    closure can read or change (the application's captured variables, the
    clock, pending timers): invoking a command in a world returns the message
    it yields, if any, and the world it leaves behind.  A nil [Cmd] and a nil
    [Msg] are [None].

    [Msg] is an open interface in Go.  The variants declared in commands.go
    are constructors here; every other message type is an opaque [Payload]
    under [UserMsg].  Composite payloads are finite trees: a command that
    yields a batch containing itself is outside this model.  Commands are
    total functions: a command that panics or never returns is outside it
    too. *)

From Stdlib Require Import String ZArith List Bool Lia.
Import ListNotations.
Open Scope Z_scope.

Set Implicit Arguments.
Set Warnings "-register-all".

(** ** The part of Go's standard package [time] that commands.go calls

    Package [time] belongs to the Go distribution, not to the repository.
    The definitions below follow its documented behaviour: a [Time] is a wall
    clock instant counted in nanoseconds since the zero time, with an optional
    monotonic clock reading; a [Duration] is a signed 64-bit count of
    nanoseconds. *)
Module GoTime.

Definition Duration : Type := Z.

Definition minDuration : Duration := - 2 ^ 63.
Definition maxDuration : Duration := 2 ^ 63 - 1.

Definition isDuration (d : Z) : Prop := minDuration <= d <= maxDuration.

Definition isDurationb (d : Z) : bool :=
  (minDuration <=? d) && (d <=? maxDuration).

(** Subtractions that overflow a [Duration] saturate. *)
Definition saturate (x : Z) : Duration :=
  if x <? minDuration then minDuration
  else if maxDuration <? x then maxDuration
  else x.

Record Time : Type := mkTime {
  wall : Z;
  mono : option Z
}.

Definition stripMono (t : Time) : Time := mkTime (wall t) None.

(** [t.Truncate(d)]: [t] rounded down to a multiple of [d] since the zero
    time; for [d <= 0], [t] unchanged.  The monotonic reading is dropped in
    both cases. *)
Definition Truncate (t : Time) (d : Duration) : Time :=
  if d <=? 0 then stripMono t
  else mkTime (wall t - wall t mod d) None.

(** [t.Add(d)]: the monotonic reading, when there is one, moves along unless
    it would overflow, in which case it is dropped. *)
Definition Add (t : Time) (d : Duration) : Time :=
  mkTime (wall t + d)
         match mono t with
         | Some m => if isDurationb (m + d) then Some (m + d) else None
         | None => None
         end.

(** [t.Sub(u)]: computed on the monotonic readings when both times carry one,
    on the wall clock otherwise. *)
Definition Sub (t u : Time) : Duration :=
  match mono t, mono u with
  | Some a, Some b => saturate (a - b)
  | _, _ => saturate (wall t - wall u)
  end.

End GoTime.

Import GoTime.

(** ** Messages and commands *)
Section Model.

Variable World : Type.
Variable Payload : Type.

(** [BatchMsg] and [sequenceMsg] are both [[]Cmd]; [WrappedMsg] is the struct
    [{Id int; Msg Msg}]; [setWindowTitleMsg] is a [string]. *)
Inductive Msg : Type :=
| UserMsg (p : Payload)
| BatchMsg (cmds : list (option (World -> option Msg * World)))
| sequenceMsg (cmds : list (option (World -> option Msg * World)))
| WrappedMsg (Id : Z) (inner : option Msg)
| setWindowTitleMsg (title : string).

(** A non-nil command. *)
Definition CmdFn : Type := World -> option Msg * World.

(** [type Cmd func() Msg]; [None] is the nil command. *)
Definition Cmd : Type := option CmdFn.

(** The clock and the timers of the Go runtime, as seen from a command:
    [time_Now] is [time.Now()]; [recvTimer d] is [t := time.NewTimer(d)]
    followed by [<-t.C], the time the timer sends when it fires. *)
Class Clock : Type := {
  time_Now : World -> Time * World;
  recvTimer : Duration -> World -> Time * World
}.

(** The loop of [Batch]: nil entries are skipped, the others appended. *)
Definition validOf (cmds : list Cmd) : list Cmd :=
  fold_left (fun (validCmds : list Cmd) (c : Cmd) =>
               match c with
               | None => validCmds
               | Some _ => validCmds ++ [c]
               end) cmds [].

Definition Batch (cmds : list Cmd) : Cmd :=
  let validCmds := validOf cmds in
  if (length validCmds =? 0)%nat then None
  else Some (fun w => (Some (BatchMsg validCmds), w)).

Definition Sequence (cmds : list Cmd) : Cmd :=
  Some (fun w => (Some (sequenceMsg cmds), w)).

(** The body of the closure [Wrap] returns, after [msg := cmd()], for a
    non-nil [msg].  The closure appended for each non-nil entry [c] is the
    one [Wrap(c, id)] returns: it is written out here because Go's recursion
    goes through the closure, Rocq's through the message ([Wrap_Some]
    below gives the equation in the source's form). *)
Fixpoint wrapMsg (id : Z) (msg : Msg) {struct msg} : Msg :=
  let rewrap := fun cmds : list Cmd =>
    fold_left (fun (wrapped : list Cmd) (c : Cmd) =>
                 match c with
                 | None => wrapped
                 | Some cmd =>
                     wrapped ++
                     [Some (fun w =>
                              let (m, w') := cmd w in
                              (Some match m with
                                    | Some m' => wrapMsg id m'
                                    | None => WrappedMsg id None
                                    end, w'))]
                 end) cmds [] in
  match msg with
  | BatchMsg cmds => BatchMsg (rewrap cmds)
  | sequenceMsg cmds => sequenceMsg (rewrap cmds)
  | _ => WrappedMsg id (Some msg)
  end.

(** The same body for any result of [cmd()]: a nil message falls in the
    [default] case of the type switch. *)
Definition wrapResult (id : Z) (msg : option Msg) : Msg :=
  match msg with
  | Some m => wrapMsg id m
  | None => WrappedMsg id None
  end.

Definition Wrap (cmd : Cmd) (id : Z) : Cmd :=
  match cmd with
  | None => cmd
  | Some c => Some (fun w => let (msg, w') := c w in
                             (Some (wrapResult id msg), w'))
  end.

(** The loop of the closure of [Wrap], in the source's form. *)
Definition wrapAll (id : Z) (cmds : list Cmd) : list Cmd :=
  fold_left (fun (wrapped : list Cmd) (c : Cmd) =>
               match c with
               | None => wrapped
               | Some _ => wrapped ++ [Wrap c id]
               end) cmds [].

Context {clock : Clock}.

(** [d := n.Truncate(duration).Add(duration).Sub(n)] *)
Definition everyDelay (n : Time) (duration : Duration) : Duration :=
  Sub (Add (Truncate n duration) duration) n.

Definition Every (duration : Duration) (fn : Time -> CmdFn) : Cmd :=
  Some (fun w =>
          let (n, w1) := time_Now w in
          let d := everyDelay n duration in
          let (t, w2) := recvTimer d w1 in
          fn t w2).

Definition Tick (d : Duration) (fn : Time -> CmdFn) : Cmd :=
  Some (fun w =>
          let (t, w1) := recvTimer d w in
          fn t w1).

(** The loop of the closure of [Sequentially]. *)
Fixpoint sequentiallyLoop (cmds : list Cmd) (w : World) : option Msg * World :=
  match cmds with
  | [] => (None, w)
  | None :: rest => sequentiallyLoop rest w
  | Some cmd :: rest =>
      match cmd w with
      | (Some msg, w') => (Some msg, w')
      | (None, w') => sequentiallyLoop rest w'
      end
  end.

Definition Sequentially (cmds : list Cmd) : Cmd :=
  Some (fun w => sequentiallyLoop cmds w).

Definition SetWindowTitle (title : string) : Cmd :=
  Some (fun w => (Some (setWindowTitleMsg title), w)).

End Model.

Arguments UserMsg {World Payload} p.
Arguments setWindowTitleMsg {World Payload} title.
Arguments SetWindowTitle {World Payload} title.

(** ** Vocabulary of the statements *)
Section Vocabulary.

Context {World Payload : Type}.

(** Calling a command in a world.  Calling a nil function value panics in
    Go: there is no result. *)
Definition invoke (cmd : Cmd World Payload) (w : World) : option (option (Msg World Payload) * World) :=
  match cmd with
  | Some f => Some (f w)
  | None => None
  end.

(** [c != nil] *)
Definition nonNil (c : Cmd World Payload) : bool :=
  match c with
  | Some _ => true
  | None => false
  end.

(** The two composite messages. *)
Inductive CompositeKind : Type := batch | sequence.

Definition composite (k : CompositeKind) (cmds : list (Cmd World Payload)) : Msg World Payload :=
  match k with
  | batch => BatchMsg cmds
  | sequence => sequenceMsg cmds
  end.

Definition isComposite (msg : Msg World Payload) : bool :=
  match msg with
  | BatchMsg _ | sequenceMsg _ => true
  | _ => false
  end.

(** The commands a yielded message carries, when it is a composite. *)
Definition payloadOf (msg : option (Msg World Payload)) : list (Cmd World Payload) :=
  match msg with
  | Some (BatchMsg cmds) | Some (sequenceMsg cmds) => cmds
  | _ => []
  end.

(** A composite message with a nil command among those it carries. *)
Definition carriesNil (msg : option (Msg World Payload)) : bool :=
  existsb (fun c => negb (nonNil c)) (payloadOf msg).

(** [Quiet cmds w w1]: run in order from world [w], every command of [cmds]
    is nil (and skipped) or yields no message, and the last one leaves the
    world [w1]. *)
Inductive Quiet : list (Cmd World Payload) -> World -> World -> Prop :=
| Quiet_nil w : Quiet [] w w
| Quiet_skip rest w w1 :
    Quiet rest w w1 -> Quiet (None :: rest) w w1
| Quiet_run cmd rest w w' w1 :
    cmd w = (None, w') -> Quiet rest w' w1 -> Quiet (Some cmd :: rest) w w1.

End Vocabulary.

(** [b] is the first multiple of [d] after the wall clock instant [n]. *)
Definition nextBoundary (d n b : Z) : Prop :=
  (d | b) /\ n < b /\ forall m, (d | m) -> n < m -> b <= m.

(** What Go promises of a timer: the time it sends is at least [d] later
    than the time the clock shows when the timer is created. *)
Definition timerContract {World : Type} (clock : Clock World) : Prop :=
  forall (d : Duration) (w : World),
    isDuration d -> d <= Sub (fst (recvTimer d w)) (fst (time_Now w)).

(** ** A simulated clock

    The world is the current instant in nanoseconds; reading the clock
    leaves it unchanged, and a timer fires exactly when it is due.  Messages
    of the application are integers. *)
Module Sim.

Definition World : Type := Z.
Definition Payload : Type := Z.

Definition at_ (w : World) : Time := mkTime w (Some w).

#[global] Instance clock : Clock World := {
  time_Now := fun w => (at_ w, w);
  recvTimer := fun d w => (at_ (w + Z.max d 0), w + Z.max d 0)
}.

(** [func(t time.Time) Msg { return TickMsg(t) }] *)
Definition tickMsg (t : Time) : CmdFn World Payload :=
  fun w => (Some (UserMsg (wall t)), w).

(** A command that yields the message [p] and adds [p] to the world. *)
Definition say (p : Z) : CmdFn World Payload :=
  fun w => (Some (UserMsg p), w + p).

(** A command that yields no message and adds [p] to the world. *)
Definition mute (p : Z) : CmdFn World Payload :=
  fun w => (None, w + p).

(** A command that yields the message [msg]. *)
Definition yield (msg : Msg World Payload) : CmdFn World Payload :=
  fun w => (Some msg, w).

End Sim.

(** ** Unrolling a composite

    What comes out of a command once every composite it yields is unrolled:
    the commands a batch or sequence message carries are run in list order,
    nil commands are skipped, and so on through the composites they yield.
    The result lists what each leaf command yielded, a message or nothing,
    and the world the last one left.  The program's loop, which does the
    unrolling when the program runs (batches concurrently), is in no file
    here; this is the order of the list. *)
Section Unrolling.

Context {World Payload : Type}.

Fixpoint drainMsg (msg : Msg World Payload) (w : World) {struct msg}
  : list (option (Msg World Payload)) * World :=
  let drainAll := fun (cmds : list (Cmd World Payload)) (w : World) =>
    fold_left (fun (acc : list (option (Msg World Payload)) * World)
                   (c : Cmd World Payload) =>
                 match c with
                 | None => acc
                 | Some cmd =>
                     let (out, w0) := acc in
                     let (m, w1) := cmd w0 in
                     match m with
                     | Some m' =>
                         let (out', w2) := drainMsg m' w1 in (out ++ out', w2)
                     | None => (out ++ [None], w1)
                     end
                 end) cmds ([], w) in
  match msg with
  | BatchMsg cmds => drainAll cmds w
  | sequenceMsg cmds => drainAll cmds w
  | _ => ([Some msg], w)
  end.

(** One turn of the loop of [drainMsg]. *)
Definition drainStep (acc : list (option (Msg World Payload)) * World)
           (c : Cmd World Payload)
  : list (option (Msg World Payload)) * World :=
  match c with
  | None => acc
  | Some cmd =>
      let (out, w0) := acc in
      let (m, w1) := cmd w0 in
      match m with
      | Some m' => let (out', w2) := drainMsg m' w1 in (out ++ out', w2)
      | None => (out ++ [None], w1)
      end
  end.

(** [P] holds of every message the command [c] can yield. *)
Definition everyYield (P : Msg World Payload -> Prop)
           (c : Cmd World Payload) : Prop :=
  match c with
  | Some cmd => forall w, match fst (cmd w) with
                          | Some m => P m
                          | None => True
                          end
  | None => True
  end.

(** The tag [Wrap] puts on what a leaf command yields. *)
Definition tagged (id : Z) (msg : option (Msg World Payload))
  : option (Msg World Payload) :=
  Some (WrappedMsg id msg).

Definition drain (msg : option (Msg World Payload)) (w : World)
  : list (option (Msg World Payload)) * World :=
  match msg with
  | Some m => drainMsg m w
  | None => ([None], w)
  end.

(** Run a command, then unroll what it yields. *)
Definition drainCmd (cmd : CmdFn World Payload) (w : World)
  : list (option (Msg World Payload)) * World :=
  let (msg, w') := cmd w in drain msg w'.

(** A message that went through [Wrap] with [id]: tagged with [id], or a
    composite. *)
Definition wrappedShape (id : Z) (msg : option (Msg World Payload)) : bool :=
  match msg with
  | Some (WrappedMsg i _) => i =? id
  | Some (BatchMsg _) | Some (sequenceMsg _) => true
  | _ => false
  end.

End Unrolling.

(** ** The countdown program of the examples (package [fullscreen])

    [tea.MsgKey] and [tea.Quit] are declared in files that are not here: the
    type of key messages, with the [String] method the program calls, and
    the command are parameters. *)
Module Fullscreen.

(** [time.Second] *)
Definition Second : Duration := 10 ^ 9.

(** A Go [int] (64 bits) after an arithmetic operation. *)
Definition wrapInt (x : Z) : Z := (x + 2 ^ 63) mod 2 ^ 64 - 2 ^ 63.

(** [type model int] *)
Definition model : Type := Z.

Section Program.

Context {World : Type} {clock : Clock World}.
Variable Key : Type.
Variable keyString : Key -> string.

(** The messages the program tells apart: a [tea.MsgKey] and its own
    [type tickMsg time.Time]. *)
Inductive AppMsg : Type :=
| MsgKey (key : Key)
| tickMsg (t : Time).

Variable Quit : Cmd World AppMsg.

Definition tick : Cmd World AppMsg :=
  Tick Second (fun t w => (Some (UserMsg (tickMsg t)), w)).

Definition Update (m : model) (message : option (Msg World AppMsg))
  : model * Cmd World AppMsg :=
  match message with
  | Some (UserMsg (MsgKey msg)) =>
      if ((keyString msg =? "q") || (keyString msg =? "esc")
          || (keyString msg =? "ctrl+c"))%string
      then (m, Quit)
      else (m, None)
  | Some (UserMsg (tickMsg _)) =>
      let m := wrapInt (m - 1) in
      if m <=? 0 then (m, Quit) else (m, tick)
  | _ => (m, None)
  end.

(** The messages of a list given to [Update] one after the other: the model
    at the end and the commands [Update] returned. *)
Fixpoint feed (m : model) (messages : list (option (Msg World AppMsg)))
  : model * list (Cmd World AppMsg) :=
  match messages with
  | [] => (m, [])
  | message :: rest =>
      let (m', cmd) := Update m message in
      let (m'', cmds) := feed m' rest in
      (m'', cmd :: cmds)
  end.

Definition isTick (message : option (Msg World AppMsg)) : bool :=
  match message with
  | Some (UserMsg (tickMsg _)) => true
  | _ => false
  end.

End Program.

End Fullscreen.

(** ** Properties of the combinators *)
Section Properties.

Context {World Payload : Type}.

Implicit Types (cmd : CmdFn World Payload) (c : Cmd World Payload).
Implicit Types (cmds : list (Cmd World Payload)) (id : Z) (w : World).

(** The loop of [Batch] started on any accumulator appends the non-nil
    entries, in order. *)
Lemma validOf_loop cmds : forall acc : list (Cmd World Payload),
  fold_left (fun (validCmds : list (Cmd World Payload)) c =>
               match c with
               | None => validCmds
               | Some _ => validCmds ++ [c]
               end) cmds acc
  = acc ++ filter nonNil cmds.
Proof.
  induction cmds as [|c rest IH]; intros acc; simpl.
  - now rewrite app_nil_r.
  - destruct c as [f|]; simpl; rewrite IH.
    + now rewrite <- app_assoc.
    + reflexivity.
Qed.

Lemma validOf_filter cmds : validOf cmds = filter nonNil cmds.
Proof. unfold validOf. now rewrite validOf_loop. Qed.

(** The loop of the closure of [Wrap], likewise. *)
Lemma wrapAll_loop id cmds : forall acc : list (Cmd World Payload),
  fold_left (fun (wrapped : list (Cmd World Payload)) c =>
               match c with
               | None => wrapped
               | Some _ => wrapped ++ [Wrap c id]
               end) cmds acc
  = acc ++ map (fun c => Wrap c id) (filter nonNil cmds).
Proof.
  induction cmds as [|c rest IH]; intros acc; simpl.
  - now rewrite app_nil_r.
  - destruct c as [f|]; simpl; rewrite IH.
    + now rewrite <- app_assoc.
    + reflexivity.
Qed.

Lemma wrapAll_map id cmds :
  wrapAll id cmds = map (fun c => Wrap c id) (filter nonNil cmds).
Proof. unfold wrapAll. now rewrite wrapAll_loop. Qed.

(** The closures [wrapMsg] builds are those of [Wrap]. *)
Lemma rewrap_wrapAll id cmds : forall acc : list (Cmd World Payload),
  fold_left (fun (wrapped : list (Cmd World Payload)) c =>
               match c with
               | None => wrapped
               | Some cmd =>
                   wrapped ++
                   [Some (fun w =>
                            let (m, w') := cmd w in
                            (Some match m with
                                  | Some m' => wrapMsg id m'
                                  | None => WrappedMsg id None
                                  end, w'))]
               end) cmds acc
  = fold_left (fun (wrapped : list (Cmd World Payload)) c =>
                 match c with
                 | None => wrapped
                 | Some _ => wrapped ++ [Wrap c id]
                 end) cmds acc.
Proof.
  induction cmds as [|c rest IH]; intros acc; simpl.
  - reflexivity.
  - destruct c as [f|]; apply IH.
Qed.

Lemma wrapMsg_BatchMsg id cmds :
  wrapMsg id (BatchMsg cmds) = BatchMsg (wrapAll id cmds).
Proof. simpl. f_equal. apply rewrap_wrapAll. Qed.

Lemma wrapMsg_sequenceMsg id cmds :
  wrapMsg id (sequenceMsg cmds) = sequenceMsg (wrapAll id cmds).
Proof. simpl. f_equal. apply rewrap_wrapAll. Qed.

(** The closure of [Wrap] as commands.go writes it: run [cmd], switch on the
    type of its message, re-wrap the commands of a batch or of a sequence
    with [Wrap] itself, wrap anything else. *)
Lemma Wrap_Some cmd id w :
  invoke (Wrap (Some cmd) id) w =
  Some (let (msg, w') := cmd w in
        match msg with
        | Some (BatchMsg cmds) => (Some (BatchMsg (wrapAll id cmds)), w')
        | Some (sequenceMsg cmds) => (Some (sequenceMsg (wrapAll id cmds)), w')
        | _ => (Some (WrappedMsg id msg), w')
        end).
Proof.
  simpl. f_equal. destruct (cmd w) as [[msg|] w']; [|reflexivity].
  unfold wrapResult.
  destruct msg; try reflexivity.
  - now rewrite wrapMsg_BatchMsg.
  - now rewrite wrapMsg_sequenceMsg.
Qed.

Lemma filter_nonNil_all cmds :
  forallb nonNil cmds = true -> filter nonNil cmds = cmds.
Proof.
  induction cmds as [|c rest IH]; simpl; [reflexivity|].
  intros H. apply andb_prop in H as [Hc Hrest].
  rewrite Hc. f_equal. now apply IH.
Qed.

Lemma filter_nonNil_clean cmds :
  existsb (fun c => negb (nonNil c)) (filter nonNil cmds) = false.
Proof.
  induction cmds as [|c rest IH]; simpl; [reflexivity|].
  destruct (nonNil c) eqn:E; simpl; [rewrite E|]; exact IH.
Qed.

Lemma map_Wrap_clean id cmds :
  existsb (fun c => negb (nonNil c))
          (map (fun c => Wrap c id) (filter nonNil cmds)) = false.
Proof.
  induction cmds as [|c rest IH]; simpl; [reflexivity|].
  destruct c as [f|]; simpl; exact IH.
Qed.

(** C1.  [Batch] filters the nil entries out.  When no non-nil command is
    left (the empty call included) it returns nil, not a command; otherwise
    it returns a command that, invoked in any world, yields the [BatchMsg]
    carrying exactly the non-nil entries in their original order, and leaves
    the world as it was. *)
Theorem Batch_filters_nil cmds :
  (filter nonNil cmds = [] -> Batch cmds = None) /\
  (filter nonNil cmds <> [] ->
   forall w, invoke (Batch cmds) w
             = Some (Some (BatchMsg (filter nonNil cmds)), w)).
Proof.
  unfold Batch. rewrite validOf_filter.
  destruct (filter nonNil cmds) as [|c rest]; simpl; split;
    intros H; congruence.
Qed.

(** C4.  [Wrap] of the nil command is the nil command, whatever the id. *)
Theorem Wrap_nil id : Wrap (@None (CmdFn World Payload)) id = None.
Proof. reflexivity. Qed.

(** C5.  [Sequence] always returns a command, and invoked in any world that
    command yields the sequence message carrying the given list as it is, in
    the declared order. *)
Theorem Sequence_carries_list cmds w :
  invoke (Sequence cmds) w = Some (Some (sequenceMsg cmds), w).
Proof. reflexivity. Qed.

(** C3.  When the non-nil command [cmd] yields a message [M] that is
    neither a batch nor a sequence, [Wrap(cmd, id)] yields exactly
    [WrappedMsg{Id: id, Msg: M}], with the effects of [cmd] and no other. *)
Theorem Wrap_plain_message cmd id w (M : Msg World Payload) w' :
  cmd w = (Some M, w') ->
  isComposite M = false ->
  invoke (Wrap (Some cmd) id) w = Some (Some (WrappedMsg id (Some M)), w').
Proof.
  intros Hrun Hplain. rewrite Wrap_Some, Hrun.
  destruct M; simpl in Hplain; try discriminate; reflexivity.
Qed.

(** C10.  When the non-nil command [cmd] yields no message,
    [Wrap(cmd, id)] still yields one: [WrappedMsg{Id: id, Msg: nil}]. *)
Theorem Wrap_no_message cmd id w w' :
  cmd w = (None, w') ->
  invoke (Wrap (Some cmd) id) w = Some (Some (WrappedMsg id None), w').
Proof.
  intros Hrun. rewrite Wrap_Some, Hrun. reflexivity.
Qed.

(** C2, amended.  When [cmd] yields a batch or a sequence carrying
    [c1..cn], [Wrap(cmd, id)] yields a composite of the same kind that
    carries [Wrap(ci, id)] for the non-nil [ci], in order: nil entries are
    dropped.  When no [ci] is nil it carries [n] commands, the i-th being
    [Wrap(ci, id)].  The carried commands are again results of [Wrap], so
    the same rule applies to what they yield, at every depth. *)
Theorem Wrap_composite cmd id w (k : CompositeKind) cmds w' :
  cmd w = (Some (composite k cmds), w') ->
  invoke (Wrap (Some cmd) id) w
  = Some (Some (composite k (map (fun c => Wrap c id) (filter nonNil cmds))),
          w')
  /\ (forallb nonNil cmds = true ->
      invoke (Wrap (Some cmd) id) w
      = Some (Some (composite k (map (fun c => Wrap c id) cmds)), w')).
Proof.
  intros Hrun.
  assert (Hgen : invoke (Wrap (Some cmd) id) w
                 = Some (Some (composite k (map (fun c => Wrap c id)
                                                (filter nonNil cmds))), w')).
  { rewrite Wrap_Some, Hrun. destruct k; simpl; now rewrite wrapAll_map. }
  split; [exact Hgen|].
  intros Hall. rewrite Hgen. now rewrite (filter_nonNil_all _ Hall).
Qed.

(** C6, amended.  A nil entry is never an error.  [Batch] drops the nil
    entries when it is called: it returns what it returns on the list without
    them, and the batch it yields carries no nil command.  [Wrap] drops them
    when it unrolls a batch or a sequence: what a wrapped command yields
    carries no nil command.  [Sequence] itself drops nothing: its sequence
    message carries the list it was given, nil entries included, and they
    go once that message is unrolled, as by [Wrap]. *)
Theorem nil_entries_dropped cmds id w :
  Batch cmds = Batch (filter nonNil cmds)
  /\ (forall r, invoke (Batch cmds) w = Some r -> carriesNil (fst r) = false)
  /\ (forall c r, invoke (Wrap c id) w = Some r -> carriesNil (fst r) = false)
  /\ (exists r, invoke (Sequence cmds) w = Some r /\ payloadOf (fst r) = cmds)
  /\ invoke (Wrap (Sequence cmds) id) w
     = Some (Some (sequenceMsg (map (fun c => Wrap c id)
                                    (filter nonNil cmds))), w).
Proof.
  repeat split.
  - unfold Batch. rewrite !validOf_filter.
    assert (E : filter nonNil (filter nonNil cmds) = filter nonNil cmds).
    { apply filter_nonNil_all, forallb_forall.
      intros c Hc. now apply filter_In in Hc. }
    now rewrite E.
  - intros r. unfold Batch. rewrite validOf_filter.
    destruct (filter nonNil cmds) as [|c rest] eqn:E; simpl; [discriminate|].
    intros [= <-]. unfold carriesNil. simpl payloadOf.
    rewrite <- E. apply filter_nonNil_clean.
  - intros [cmd|] r; [|discriminate].
    rewrite Wrap_Some. intros [= <-].
    destruct (cmd w) as [[msg|] w']; [|reflexivity].
    destruct msg; try reflexivity; unfold carriesNil; simpl payloadOf;
      rewrite wrapAll_map; apply map_Wrap_clean.
  - eexists. split; reflexivity.
  - unfold Sequence. rewrite Wrap_Some. now rewrite wrapAll_map.
Qed.

(** The loop of [Sequentially] runs through a quiet prefix and goes on from
    the world that prefix leaves. *)
Lemma sequentiallyLoop_Quiet (pre : list (Cmd World Payload)) w w1 :
  Quiet pre w w1 ->
  forall rest, sequentiallyLoop (pre ++ rest) w = sequentiallyLoop rest w1.
Proof.
  induction 1 as [w|pre w w1 _ IH|cmd pre w w' w1 Hrun _ IH]; intros rest;
    simpl.
  - reflexivity.
  - apply IH.
  - rewrite Hrun. apply IH.
Qed.

(** Any list either has a first command that yields a message, after a quiet
    prefix, or is quiet as a whole. *)
Lemma Quiet_or_message cmds : forall w,
  (exists pre cmd post (m : Msg World Payload) w1 w2,
      cmds = pre ++ Some cmd :: post /\ Quiet pre w w1 /\
      cmd w1 = (Some m, w2))
  \/ (exists w1, Quiet cmds w w1).
Proof.
  induction cmds as [|c rest IH]; intros w.
  - right. exists w. constructor.
  - destruct c as [cmd|].
    + destruct (cmd w) as [[m|] w'] eqn:Hrun.
      * left. exists [], cmd, rest, m, w, w'.
        repeat split; [constructor | exact Hrun].
      * destruct (IH w') as [(pre & cmd' & post & m & w1 & w2 & E & Hq & Hm)
                            |(w1 & Hq)].
        -- left. exists (Some cmd :: pre), cmd', post, m, w1, w2.
           subst rest. repeat split; [econstructor; eassumption | exact Hm].
        -- right. exists w1. econstructor; eassumption.
    + destruct (IH w) as [(pre & cmd' & post & m & w1 & w2 & E & Hq & Hm)
                         |(w1 & Hq)].
      * left. exists (None :: pre), cmd', post, m, w1, w2.
        subst rest. repeat split; [now constructor | exact Hm].
      * right. exists w1. now constructor.
Qed.

(** C9.  [Sequentially] always returns a command, which runs the given
    commands in declared order and skips the nil entries.  When a command of
    the list yields a message after entries that were nil or yielded nothing,
    the result is that message and the world is the one that command left:
    nothing after it has run.  When every entry is nil or yields nothing, the
    result is nil.  One of the two is always the case. *)
Theorem Sequentially_first_message cmds w :
  (forall pre cmd post (m : Msg World Payload) w1 w2,
      cmds = pre ++ Some cmd :: post ->
      Quiet pre w w1 ->
      cmd w1 = (Some m, w2) ->
      invoke (Sequentially cmds) w = Some (Some m, w2))
  /\ (forall w1,
         Quiet cmds w w1 ->
         invoke (Sequentially cmds) w = Some (None, w1))
  /\ ((exists pre cmd post (m : Msg World Payload) w1 w2,
          cmds = pre ++ Some cmd :: post /\ Quiet pre w w1 /\
          cmd w1 = (Some m, w2))
      \/ (exists w1, Quiet cmds w w1)).
Proof.
  split; [|split].
  - intros pre cmd post m w1 w2 E Hq Hm.
    subst cmds. simpl. f_equal.
    rewrite (sequentiallyLoop_Quiet Hq). simpl. now rewrite Hm.
  - intros w1 Hq. simpl. f_equal.
    rewrite <- (app_nil_r cmds). now rewrite (sequentiallyLoop_Quiet Hq).
  - apply Quiet_or_message.
Qed.

(** Rounding an instant down to a multiple of [d] and adding [d] gives the
    first multiple of [d] after it. *)
Lemma nextBoundary_truncate (d n : Z) :
  0 < d -> nextBoundary d n (n - n mod d + d).
Proof.
  intros Hd. pose proof (Z.mod_pos_bound n d Hd) as Hr.
  pose proof (Z.div_mod n d ltac:(lia)) as Hn.
  repeat split.
  - exists (n / d + 1). lia.
  - lia.
  - intros m [q ->] Hm.
    assert (n / d < q) by nia.
    nia.
Qed.

(** The delay [Every] computes, on the wall clock whatever the monotonic
    reading of [n]. *)
Lemma everyDelay_wall (n : Time) (duration : Duration) :
  0 < duration -> duration <= maxDuration ->
  everyDelay n duration = duration - wall n mod duration.
Proof.
  intros Hd Hmax. pose proof (Z.mod_pos_bound (wall n) duration Hd) as Hr.
  unfold everyDelay, Truncate, Add, Sub.
  destruct (Z.leb_spec duration 0) as [H0|_]; [lia|].
  simpl. unfold saturate, minDuration, maxDuration in *.
  destruct (Z.ltb_spec (wall n - wall n mod duration + duration - wall n)
                       (- 2 ^ 63)); [lia|].
  destruct (Z.ltb_spec (2 ^ 63 - 1)
                       (wall n - wall n mod duration + duration - wall n));
    lia.
Qed.

Context {clock : Clock World}.

(** C7.  For a positive duration, the delay [Every] waits is the distance
    from the invocation time [n] to the first wall clock instant after [n]
    that is a multiple of the duration, namely [Truncate(n, d) + d - n]: the
    timer is set for that boundary.  The message of the command is [fn]
    applied to the time the timer sends when it fires. *)
Theorem Every_next_boundary (duration : Duration)
        (fn : Time -> CmdFn World Payload) w :
  0 < duration -> duration <= maxDuration ->
  exists b : Z,
    nextBoundary duration (wall (fst (time_Now w))) b
    /\ everyDelay (fst (time_Now w)) duration = b - wall (fst (time_Now w))
    /\ 0 < b - wall (fst (time_Now w)) <= duration
    /\ invoke (Every duration fn) w
       = Some (let (t, w2) := recvTimer (b - wall (fst (time_Now w)))
                                        (snd (time_Now w)) in
               fn t w2).
Proof.
  intros Hd Hmax.
  destruct (time_Now w) as [n w1] eqn:Hnow. simpl fst. simpl snd.
  exists (wall n - wall n mod duration + duration).
  pose proof (Z.mod_pos_bound (wall n) duration Hd) as Hr.
  pose proof (everyDelay_wall n Hd Hmax) as Hdelay.
  repeat split.
  - apply (proj1 (nextBoundary_truncate (wall n) Hd)).
  - apply (proj1 (proj2 (nextBoundary_truncate (wall n) Hd))).
  - apply (proj2 (proj2 (nextBoundary_truncate (wall n) Hd))).
  - rewrite Hdelay. lia.
  - lia.
  - lia.
  - simpl. rewrite Hnow, Hdelay.
    replace (wall n - wall n mod duration + duration - wall n)
      with (duration - wall n mod duration) by lia.
    reflexivity.
Qed.

(** C8.  [Tick] creates its timer for [d] as soon as it is invoked, without
    looking at the clock, and its message is [fn] applied to the time the
    timer sends when it fires.  With a timer that keeps Go's promise, that
    time is no earlier than [d] after the invocation. *)
Theorem Tick_fires_after (d : Duration)
        (fn : Time -> CmdFn World Payload) w :
  timerContract clock -> isDuration d ->
  exists (t : Time) (w1 : World),
    recvTimer d w = (t, w1)
    /\ invoke (Tick d fn) w = Some (fn t w1)
    /\ d <= Sub t (fst (time_Now w)).
Proof.
  intros Hcontract Hd.
  destruct (recvTimer d w) as [t w1] eqn:Hfire.
  exists t, w1. repeat split.
  - simpl. now rewrite Hfire.
  - specialize (Hcontract d w Hd). now rewrite Hfire in Hcontract.
Qed.

End Properties.

(** ** The combinators on the simulated clock *)

(** The simulated timer keeps Go's promise. *)
Lemma Sim_timerContract : timerContract Sim.clock.
Proof.
  intros d w [Hmin Hmax].
  unfold recvTimer, time_Now, Sim.clock, Sim.at_, Sub, fst, mono, wall.
  unfold saturate, minDuration, maxDuration in *.
  destruct (Z.ltb_spec (w + Z.max d 0 - w) (- 2 ^ 63)); [lia|].
  destruct (Z.ltb_spec (2 ^ 63 - 1) (w + Z.max d 0 - w)); lia.
Qed.

(** The example of the comment of [Every] in commands.go: ticking for one
    minute with the clock at 12:34:20, the tick is 40 seconds later. *)
Example everyDelay_minute :
  everyDelay (Sim.at_ ((12 * 3600 + 34 * 60 + 20) * 10 ^ 9)) (60 * 10 ^ 9)
  = 40 * 10 ^ 9.
Proof. vm_compute. reflexivity. Qed.

(** [Every] for one second, invoked 0.3 s and then 1.25 s after a second
    boundary: both timers are due on a boundary, one second apart. *)
Example Every_second_twice :
  invoke (Every (10 ^ 9) Sim.tickMsg) (7 * 10 ^ 9 + 3 * 10 ^ 8)
  = Some (Some (UserMsg (8 * 10 ^ 9)), 8 * 10 ^ 9)
  /\ invoke (Every (10 ^ 9) Sim.tickMsg) (8 * 10 ^ 9 + 25 * 10 ^ 7)
     = Some (Some (UserMsg (9 * 10 ^ 9)), 9 * 10 ^ 9).
Proof. split; vm_compute; reflexivity. Qed.

(** [Tick] for 200 ms, invoked at the same two instants: each fires 200 ms
    after its own invocation. *)
Example Tick_200ms_twice :
  invoke (Tick (2 * 10 ^ 8) Sim.tickMsg) (7 * 10 ^ 9 + 3 * 10 ^ 8)
  = Some (Some (UserMsg (7 * 10 ^ 9 + 5 * 10 ^ 8)), 7 * 10 ^ 9 + 5 * 10 ^ 8)
  /\ invoke (Tick (2 * 10 ^ 8) Sim.tickMsg) (8 * 10 ^ 9 + 25 * 10 ^ 7)
     = Some (Some (UserMsg (8 * 10 ^ 9 + 45 * 10 ^ 7)),
             8 * 10 ^ 9 + 45 * 10 ^ 7).
Proof. split; vm_compute; reflexivity. Qed.

(** Wrapping at two depths: a batch of a sequence and a leaf.  The wrapped
    batch carries the wrapped sequence and the wrapped leaf; the wrapped
    sequence, invoked, carries its wrapped leaf, the nil entry gone. *)
Example Wrap_two_levels :
  invoke (Wrap (Batch [Sequence [Some (Sim.say 1); None]; None;
                       Some (Sim.say 2)]) 7) 0
  = Some (Some (BatchMsg [Wrap (Sequence [Some (Sim.say 1); None]) 7;
                          Wrap (Some (Sim.say 2)) 7]), 0)
  /\ invoke (Wrap (Sequence [Some (Sim.say 1); None]) 7) 0
     = Some (Some (sequenceMsg [Wrap (Some (Sim.say 1)) 7]), 0)
  /\ invoke (Wrap (Some (Sim.say 1)) 7) 0
     = Some (Some (WrappedMsg 7 (Some (UserMsg 1))), 1).
Proof. repeat split. Qed.

(** [Sequentially] stops at the first message: the command after it has not
    changed the world. *)
Example Sequentially_stops :
  invoke (Sequentially [None; Some (Sim.mute 1); Some (Sim.say 10);
                        Some (Sim.say 100)]) 0
  = Some (Some (UserMsg 10), 11).
Proof. reflexivity. Qed.

(** C2 as stated fails on a nil entry: the sequence message of
    [Sequence(nil, say)] carries two commands, the one [Wrap] yields from it
    carries one. *)
Lemma Wrap_composite_length_counterexample :
  exists r r' : option (Msg Sim.World Sim.Payload) * Sim.World,
    invoke (Sequence [None; Some (Sim.say 1)]) 0 = Some r
    /\ invoke (Wrap (Sequence [None; Some (Sim.say 1)]) 7) 0 = Some r'
    /\ length (payloadOf (fst r)) = 2%nat
    /\ length (payloadOf (fst r')) = 1%nat.
Proof. do 2 eexists. repeat split. Qed.

(** C6 as stated fails on [Sequence]: the sequence message of
    [Sequence(nil, say)] carries the nil command. *)
Lemma Sequence_carries_nil_counterexample :
  exists r : option (Msg Sim.World Sim.Payload) * Sim.World,
    invoke (Sequence [None; Some (Sim.say 1)]) 0 = Some r
    /\ carriesNil (fst r) = true.
Proof. eexists. split; reflexivity. Qed.

(** Witness of C2: a batch of two commands, wrapped with id 7. *)
Lemma Wrap_composite_witness :
  Sim.yield (BatchMsg [Some (Sim.say 1); Some (Sim.mute 2)]) 0
  = (Some (composite batch [Some (Sim.say 1); Some (Sim.mute 2)]), 0)
  /\ (invoke (Wrap (Some (Sim.yield
                (BatchMsg [Some (Sim.say 1); Some (Sim.mute 2)]))) 7) 0
      = Some (Some (composite batch
                      (map (fun c => Wrap c 7)
                           (filter nonNil
                                   [Some (Sim.say 1); Some (Sim.mute 2)]))), 0)
      /\ (forallb nonNil [Some (Sim.say 1); Some (Sim.mute 2)] = true ->
          invoke (Wrap (Some (Sim.yield
                (BatchMsg [Some (Sim.say 1); Some (Sim.mute 2)]))) 7) 0
          = Some (Some (composite batch
                          (map (fun c => Wrap c 7)
                               [Some (Sim.say 1); Some (Sim.mute 2)])), 0))).
Proof.
  split; [reflexivity|].
  apply (@Wrap_composite Sim.World Sim.Payload
           (Sim.yield (BatchMsg [Some (Sim.say 1); Some (Sim.mute 2)]))
           7 0 batch [Some (Sim.say 1); Some (Sim.mute 2)] 0).
  reflexivity.
Defined.

(** Witness of C3: a command that yields the message 5, wrapped with id 7. *)
Lemma Wrap_plain_message_witness :
  Sim.say 5 0 = (Some (UserMsg 5), 5)
  /\ isComposite (@UserMsg Sim.World Sim.Payload 5) = false
  /\ invoke (Wrap (Some (Sim.say 5)) 7) 0
     = Some (Some (WrappedMsg 7 (Some (UserMsg 5))), 5).
Proof.
  split; [reflexivity|]. split; [reflexivity|].
  apply (@Wrap_plain_message Sim.World Sim.Payload (Sim.say 5) 7 0
           (UserMsg 5) 5); reflexivity.
Defined.

(** Witness of C10: a command that yields nothing, wrapped with id 7. *)
Lemma Wrap_no_message_witness :
  Sim.mute 5 0 = (None, 5)
  /\ invoke (Wrap (Some (Sim.mute 5)) 7) 0
     = Some (Some (WrappedMsg 7 None), 5).
Proof.
  split; [reflexivity|].
  apply (@Wrap_no_message Sim.World Sim.Payload (Sim.mute 5) 7 0 5).
  reflexivity.
Defined.

(** Witness of C7: [Every] for one second, invoked 0.3 s after a boundary. *)
Lemma Every_next_boundary_witness :
  0 < 10 ^ 9 /\ 10 ^ 9 <= maxDuration
  /\ exists b : Z,
       nextBoundary (10 ^ 9)
                    (wall (fst (time_Now (7 * 10 ^ 9 + 3 * 10 ^ 8)))) b
       /\ everyDelay (fst (time_Now (7 * 10 ^ 9 + 3 * 10 ^ 8))) (10 ^ 9)
          = b - wall (fst (time_Now (7 * 10 ^ 9 + 3 * 10 ^ 8)))
       /\ 0 < b - wall (fst (time_Now (7 * 10 ^ 9 + 3 * 10 ^ 8))) <= 10 ^ 9
       /\ invoke (Every (10 ^ 9) Sim.tickMsg) (7 * 10 ^ 9 + 3 * 10 ^ 8)
          = Some (let (t, w2) :=
                    recvTimer
                      (b - wall (fst (time_Now (7 * 10 ^ 9 + 3 * 10 ^ 8))))
                      (snd (time_Now (7 * 10 ^ 9 + 3 * 10 ^ 8))) in
                  Sim.tickMsg t w2).
Proof.
  split; [lia|]. split; [unfold maxDuration; lia|].
  apply (@Every_next_boundary Sim.World Sim.Payload Sim.clock (10 ^ 9)
           Sim.tickMsg (7 * 10 ^ 9 + 3 * 10 ^ 8)).
  - lia.
  - unfold maxDuration; lia.
Defined.

(** Witness of C8: [Tick] for 200 ms on the simulated clock. *)
Lemma Tick_fires_after_witness :
  timerContract Sim.clock /\ isDuration (2 * 10 ^ 8)
  /\ exists (t : Time) (w1 : Sim.World),
       recvTimer (2 * 10 ^ 8) (7 * 10 ^ 9) = (t, w1)
       /\ invoke (Tick (2 * 10 ^ 8) Sim.tickMsg) (7 * 10 ^ 9)
          = Some (Sim.tickMsg t w1)
       /\ 2 * 10 ^ 8 <= Sub t (fst (time_Now (7 * 10 ^ 9))).
Proof.
  split; [exact Sim_timerContract|].
  split; [unfold isDuration, minDuration, maxDuration; lia|].
  apply (@Tick_fires_after Sim.World Sim.Payload Sim.clock (2 * 10 ^ 8)
           Sim.tickMsg (7 * 10 ^ 9)).
  - exact Sim_timerContract.
  - unfold isDuration, minDuration, maxDuration; lia.
Defined.

(** ** How the combinators compose *)
Section Composition.

Context {World Payload : Type}.

Implicit Types (cmd : CmdFn World Payload) (c : Cmd World Payload).
Implicit Types (cmds : list (Cmd World Payload)) (id : Z) (w : World).

Lemma Batch_None_iff cmds :
  Batch cmds = None <-> filter nonNil cmds = [].
Proof.
  unfold Batch. rewrite validOf_filter.
  destruct (filter nonNil cmds); simpl; split; congruence.
Qed.

Lemma invoke_Batch cmds w :
  invoke (Batch cmds) w
  = match filter nonNil cmds with
    | [] => None
    | _ :: _ => Some (Some (BatchMsg (filter nonNil cmds)), w)
    end.
Proof.
  unfold Batch. rewrite validOf_filter.
  now destruct (filter nonNil cmds).
Qed.

Lemma filter_nonNil_nil_iff cmds :
  filter nonNil cmds = []
  <-> forallb (fun c => negb (nonNil c)) cmds = true.
Proof.
  induction cmds as [|c rest IH]; simpl; [tauto|].
  destruct (nonNil c); simpl; [split; discriminate | exact IH].
Qed.

Lemma nonNil_Wrap c id : nonNil (Wrap c id) = nonNil c.
Proof. now destruct c. Qed.

Lemma filter_nonNil_map_Wrap id cmds :
  filter nonNil (map (fun c => Wrap c id) cmds)
  = map (fun c => Wrap c id) (filter nonNil cmds).
Proof.
  induction cmds as [|c rest IH]; simpl; [reflexivity|].
  rewrite nonNil_Wrap. destruct (nonNil c); simpl; now rewrite IH.
Qed.

(** [Batch] of a concatenation is nil exactly when [Batch] of both parts is,
    and otherwise yields a batch that carries what the two parts would carry,
    the first part's commands first. *)
Theorem Batch_app (l1 l2 : list (Cmd World Payload)) w :
  (Batch (l1 ++ l2) = None <-> Batch l1 = None /\ Batch l2 = None)
  /\ (Batch (l1 ++ l2) <> None ->
      invoke (Batch (l1 ++ l2)) w
      = Some (Some (BatchMsg (filter nonNil l1 ++ filter nonNil l2)), w)).
Proof.
  split.
  - rewrite !Batch_None_iff, filter_app. split.
    + intros H. now apply app_eq_nil in H.
    + intros [-> ->]. reflexivity.
  - intros Hne. rewrite invoke_Batch, <- filter_app.
    destruct (filter nonNil (l1 ++ l2)) eqn:E; [|reflexivity].
    exfalso. now apply Hne, Batch_None_iff.
Qed.

(** A batch of batches is nil exactly when every inner list has nothing but
    nil entries: [Batch] of nothing is nil, and nil is dropped one level
    up. *)
Theorem Batch_of_Batch_nil (ls : list (list (Cmd World Payload))) :
  Batch (map (@Batch World Payload) ls) = None
  <-> Forall (fun l => forallb (fun c => negb (nonNil c)) l = true) ls.
Proof.
  rewrite Batch_None_iff.
  induction ls as [|l rest IH]; simpl.
  - split; [constructor | reflexivity].
  - assert (Hl : nonNil (Batch l) = false
                 <-> forallb (fun c => negb (nonNil c)) l = true).
    { rewrite <- filter_nonNil_nil_iff, <- Batch_None_iff.
      destruct (Batch l); simpl; split; congruence. }
    split.
    + intros H. destruct (nonNil (Batch l)) eqn:E; [discriminate|].
      constructor; [now apply Hl | now apply IH].
    + intros H. inversion H as [|? ? Hhead Htail]; subst.
      apply Hl in Hhead. rewrite Hhead. now apply IH.
Qed.

(** [Wrap] goes through [Batch]: wrapping a batch is the same command, to
    invoke, as the batch of the wrapped commands; both are nil when every
    entry is nil. *)
Theorem Wrap_Batch cmds id w :
  invoke (Wrap (Batch cmds) id) w
  = invoke (Batch (map (fun c => Wrap c id) cmds)) w
  /\ (Wrap (Batch cmds) id = None
      <-> Batch (map (fun c => Wrap c id) cmds) = None).
Proof.
  assert (Hnil : Batch (map (fun c => Wrap c id) cmds) = None
                 <-> Batch cmds = None).
  { rewrite !Batch_None_iff, filter_nonNil_map_Wrap.
    destruct (filter nonNil cmds); simpl; split; congruence. }
  split.
  - rewrite (invoke_Batch (map _ cmds)), filter_nonNil_map_Wrap.
    unfold Batch. rewrite validOf_filter.
    destruct (filter nonNil cmds) as [|c rest] eqn:E; [reflexivity|].
    change (Datatypes.length (c :: rest) =? 0)%nat with false.
    cbv iota. etransitivity; [apply Wrap_Some|].
    cbv beta iota. rewrite wrapAll_map.
    replace (filter nonNil (c :: rest)) with (c :: rest); [reflexivity|].
    rewrite <- E. symmetry. apply filter_nonNil_all, forallb_forall.
    intros x Hx. now apply filter_In in Hx.
  - rewrite Hnil. destruct (Batch cmds); simpl; split; congruence.
Qed.

(** Wrapping twice nests the tags, the outer id outside; on a composite
    both wraps go down to each non-nil command. *)
Theorem Wrap_Wrap cmd (i j : Z) w :
  invoke (Wrap (Wrap (Some cmd) i) j) w
  = Some (let (msg, w') := cmd w in
          match msg with
          | Some (BatchMsg cmds) =>
              (Some (BatchMsg (map (fun c => Wrap (Wrap c i) j)
                                   (filter nonNil cmds))), w')
          | Some (sequenceMsg cmds) =>
              (Some (sequenceMsg (map (fun c => Wrap (Wrap c i) j)
                                      (filter nonNil cmds))), w')
          | _ => (Some (WrappedMsg j (Some (WrappedMsg i msg))), w')
          end).
Proof.
  pose proof (Wrap_Some cmd i w) as Hin.
  change (Wrap (Some cmd) i)
    with (Some (fun w => let (msg, w') := cmd w in
                         (Some (wrapResult i msg), w'))) in *.
  simpl invoke in Hin. injection Hin as Hin.
  etransitivity; [apply Wrap_Some|]. f_equal.
  cbv beta in Hin |- *. rewrite Hin.
  destruct (cmd w) as [[msg|] w']; [|reflexivity].
  destruct msg; try reflexivity;
    rewrite !wrapAll_map, filter_nonNil_map_Wrap, map_map;
    rewrite (filter_nonNil_all (filter nonNil cmds));
    try reflexivity;
    apply forallb_forall; intros x Hx; now apply filter_In in Hx.
Qed.

(** What a wrapped command yields is never nothing and never a bare
    message: it is a [WrappedMsg] with the given id or a composite.  The
    wrapped command changes the world as the inner command does. *)
Theorem Wrap_result_shape cmd id w :
  exists (m : Msg World Payload),
    invoke (Wrap (Some cmd) id) w = Some (Some m, snd (cmd w))
    /\ wrappedShape id (Some m) = true.
Proof.
  destruct (cmd w) as [msg w'] eqn:Hrun.
  pose proof (Wrap_Some cmd id w) as H. rewrite Hrun in H.
  destruct msg as [msg|].
  - destruct msg; eexists; (split; [exact H|]); simpl;
      try reflexivity; apply Z.eqb_refl.
  - eexists. split; [exact H|]. simpl. apply Z.eqb_refl.
Qed.

(** Induction on messages, through the commands a composite carries. *)
Lemma Msg_nested_ind (P : Msg World Payload -> Prop) :
  (forall p, P (UserMsg p)) ->
  (forall cmds, Forall (everyYield P) cmds -> P (BatchMsg cmds)) ->
  (forall cmds, Forall (everyYield P) cmds -> P (sequenceMsg cmds)) ->
  (forall i inner, P (WrappedMsg i inner)) ->
  (forall title, P (setWindowTitleMsg title)) ->
  forall m, P m.
Proof.
  intros hU hB hS hW hT.
  fix IH 1. intros m.
  destruct m as [p|cmds|cmds|i inner|title];
    [apply hU | apply hB | apply hS | apply hW | apply hT].
  - induction cmds as [|c rest IHrest]; constructor; [|exact IHrest].
    destruct c as [f|]; simpl; [|exact I].
    intros w. destruct (f w) as [[m|] w']; simpl; [apply IH | exact I].
  - induction cmds as [|c rest IHrest]; constructor; [|exact IHrest].
    destruct c as [f|]; simpl; [|exact I].
    intros w. destruct (f w) as [[m|] w']; simpl; [apply IH | exact I].
Qed.

Lemma drainMsg_BatchMsg cmds w :
  drainMsg (BatchMsg cmds) w = fold_left drainStep cmds ([], w).
Proof. reflexivity. Qed.

Lemma drainMsg_sequenceMsg cmds w :
  drainMsg (sequenceMsg cmds) w = fold_left drainStep cmds ([], w).
Proof. reflexivity. Qed.

(** The loop of [drainMsg] over wrapped commands, when the messages the
    commands yield unroll as [P] says. *)
Lemma drainStep_wrapped id cmds :
  Forall (everyYield (fun m => forall w,
            drainMsg (wrapMsg id m) w
            = (map (tagged id) (fst (drainMsg m w)), snd (drainMsg m w))))
         cmds ->
  forall out w0,
    fold_left drainStep (map (fun c => Wrap c id) (filter nonNil cmds))
              (map (tagged id) out, w0)
    = (map (tagged id) (fst (fold_left drainStep cmds (out, w0))),
       snd (fold_left drainStep cmds (out, w0))).
Proof.
  induction 1 as [|c rest Hc _ IH]; intros out w0; [reflexivity|].
  destruct c as [f|]; simpl; [|apply IH].
  specialize (Hc w0). destruct (f w0) as [[m|] w1]; simpl in Hc |- *.
  - rewrite Hc. destruct (drainMsg m w1) as [out' w2]. simpl.
    rewrite <- map_app. apply IH.
  - change [Some (WrappedMsg id (@None (Msg World Payload)))]
      with (map (tagged id) [@None (Msg World Payload)]).
    rewrite <- map_app. apply IH.
Qed.

Lemma drainMsg_wrapMsg id (m : Msg World Payload) : forall w,
  drainMsg (wrapMsg id m) w
  = (map (tagged id) (fst (drainMsg m w)), snd (drainMsg m w)).
Proof.
  induction m as [p|cmds Hall|cmds Hall|i inner|title] using Msg_nested_ind;
    intros w; try reflexivity.
  - rewrite wrapMsg_BatchMsg, wrapAll_map, !drainMsg_BatchMsg.
    apply (@drainStep_wrapped id cmds Hall [] w).
  - rewrite wrapMsg_sequenceMsg, wrapAll_map, !drainMsg_sequenceMsg.
    apply (@drainStep_wrapped id cmds Hall [] w).
Qed.

(** Wrapping reaches every leaf.  Unrolled, a wrapped command runs the same
    leaf commands as the inner one, with the same effects, and what comes
    out is what each leaf yielded, a message or nothing, inside a
    [WrappedMsg] with the id: no message of a leaf comes out bare, and no
    composite marker is wrapped. *)
Theorem Wrap_leaves cmd id w :
  exists g : CmdFn World Payload,
    Wrap (Some cmd) id = Some g
    /\ drainCmd g w
       = (map (tagged id) (fst (drainCmd cmd w)), snd (drainCmd cmd w)).
Proof.
  eexists. split; [reflexivity|].
  unfold drainCmd. destruct (cmd w) as [[m|] w']; simpl.
  - apply drainMsg_wrapMsg.
  - reflexivity.
Qed.

(** A wrapped [SetWindowTitle] no longer yields the message that sets the
    title: it yields a [WrappedMsg] around it. *)
Theorem Wrap_SetWindowTitle (title : string) id w :
  invoke (Wrap (@SetWindowTitle World Payload title) id) w
  = Some (Some (WrappedMsg id (Some (setWindowTitleMsg title))), w).
Proof. reflexivity. Qed.

End Composition.

(** ** [Sequentially], [Every] and the countdown program *)
Section Sequencing.

Context {World Payload : Type}.

Implicit Types (cmd : CmdFn World Payload) (c : Cmd World Payload).
Implicit Types (cmds : list (Cmd World Payload)) (w : World).

(** The loop over a concatenation: the second part runs only when the first
    has yielded nothing, from the world the first has left. *)
Lemma sequentiallyLoop_app (l1 l2 : list (Cmd World Payload)) : forall w,
  sequentiallyLoop (l1 ++ l2) w
  = match sequentiallyLoop l1 w with
    | (Some m, w') => (Some m, w')
    | (None, w') => sequentiallyLoop l2 w'
    end.
Proof.
  induction l1 as [|c rest IH]; intros w; simpl; [reflexivity|].
  destruct c as [f|]; [|apply IH].
  destruct (f w) as [[m|] w']; [reflexivity | apply IH].
Qed.

(** Nil entries make no difference to [Sequentially]: to invoke, the command
    is the one built from the list without them. *)
Theorem Sequentially_skips_nil cmds w :
  invoke (Sequentially cmds) w
  = invoke (Sequentially (filter nonNil cmds)) w.
Proof.
  simpl. f_equal. revert w.
  induction cmds as [|c rest IH]; intros w; simpl; [reflexivity|].
  destruct c as [f|]; simpl; [|apply IH].
  destruct (f w) as [[m|] w']; [reflexivity | apply IH].
Qed.

(** [Sequentially] of one command is, to invoke, that command. *)
Theorem Sequentially_single cmd w :
  invoke (Sequentially [Some cmd]) w = invoke (Some cmd) w.
Proof.
  simpl. f_equal. now destruct (cmd w) as [[m|] w'].
Qed.

(** Nesting flattens: [Sequentially] of commands that are themselves
    [Sequentially] of lists is, to invoke, [Sequentially] of the lists put end
    to end. *)
Theorem Sequentially_flattens (ls : list (list (Cmd World Payload))) w :
  invoke (Sequentially (map (@Sequentially World Payload) ls)) w
  = invoke (Sequentially (concat ls)) w.
Proof.
  simpl. f_equal. revert w.
  induction ls as [|l rest IH]; intros w; [reflexivity|].
  cbn [map concat]. rewrite sequentiallyLoop_app.
  change (sequentiallyLoop (Sequentially l :: map (@Sequentially _ _) rest) w)
    with (match sequentiallyLoop l w with
          | (Some msg, w') => (Some msg, w')
          | (None, w') =>
              sequentiallyLoop (map (@Sequentially _ _) rest) w'
          end).
  destruct (sequentiallyLoop l w) as [[m|] w']; [reflexivity | apply IH].
Qed.

Context {clock : Clock World}.

(** With a zero or negative duration [Every] does not align anything: the
    delay it computes is the duration itself, and past the reading of the
    clock the command is [Tick] with that duration. *)
Theorem Every_nonpositive (duration : Duration)
        (fn : Time -> CmdFn World Payload) w :
  minDuration <= duration -> duration <= 0 ->
  (forall n : Time, everyDelay n duration = duration)
  /\ invoke (Every duration fn) w
     = invoke (Tick duration fn) (snd (time_Now w)).
Proof.
  intros Hmin Hneg.
  assert (Hdelay : forall n : Time, everyDelay n duration = duration).
  { intros n. unfold everyDelay, Truncate, Add, Sub.
    destruct (Z.leb_spec duration 0) as [_|H0]; [|lia].
    simpl. unfold saturate, minDuration, maxDuration in *.
    destruct (Z.ltb_spec (wall n + duration - wall n) (- 2 ^ 63)); [lia|].
    destruct (Z.ltb_spec (2 ^ 63 - 1) (wall n + duration - wall n)); lia. }
  split; [exact Hdelay|].
  simpl. destruct (time_Now w) as [n w1]. now rewrite Hdelay.
Qed.

(** Two invocations of [Every] in the same period of the wall clock are due
    at the same instant, the end of that period, whatever their offsets in
    it and whatever their monotonic readings. *)
Theorem Every_same_period (duration : Duration) (n n' : Time) :
  0 < duration -> duration <= maxDuration ->
  wall n / duration = wall n' / duration ->
  wall n + everyDelay n duration = wall n' + everyDelay n' duration
  /\ wall n + everyDelay n duration = (wall n / duration + 1) * duration.
Proof.
  intros Hd Hmax Hq.
  rewrite !everyDelay_wall by assumption.
  pose proof (Z.div_mod (wall n) duration ltac:(lia)) as Hn.
  pose proof (Z.div_mod (wall n') duration ltac:(lia)) as Hn'.
  rewrite <- Hq in Hn'. split; nia.
Qed.

End Sequencing.

Section Countdown.

Context {World : Type} {clock : Clock World}.
Variable Key : Type.
Variable keyString : Key -> string.
Variable Quit : Cmd World (Fullscreen.AppMsg Key).

Lemma wrapInt_small (x : Z) :
  - 2 ^ 63 <= x < 2 ^ 63 -> Fullscreen.wrapInt x = x.
Proof.
  intros H. unfold Fullscreen.wrapInt.
  rewrite Z.mod_small; lia.
Qed.

(** As long as the ticks do not bring the model to zero, every one of them
    takes one off and asks for the next. *)
Lemma feed_ticks (messages : list (option (Msg World (Fullscreen.AppMsg Key)))) :
  forallb (@Fullscreen.isTick World Key) messages = true ->
  forall m : Fullscreen.model,
    Z.of_nat (length messages) < m -> m < 2 ^ 63 ->
    Fullscreen.feed keyString Quit m messages
    = (m - Z.of_nat (length messages),
       repeat (@Fullscreen.tick World clock Key) (length messages)).
Proof.
  induction messages as [|message rest IH]; intros Hall m Hlen Hmax.
  - simpl. f_equal. lia.
  - cbn [forallb] in Hall. apply andb_prop in Hall as [Htick Hall].
    cbn [length] in Hlen |- *. rewrite Nat2Z.inj_succ in Hlen |- *.
    destruct message as [[[key|t]| | | |]|]; try discriminate.
    cbn [Fullscreen.feed Fullscreen.Update].
    rewrite wrapInt_small by lia.
    destruct (Z.leb_spec (m - 1) 0) as [H0|_]; [lia|].
    rewrite (IH Hall (m - 1)) by lia.
    cbn [repeat]. f_equal. lia.
Qed.

Lemma feed_app (l1 l2 : list (option (Msg World (Fullscreen.AppMsg Key))))
      : forall m : Fullscreen.model,
  Fullscreen.feed keyString Quit m (l1 ++ l2)
  = (fst (Fullscreen.feed keyString Quit
                          (fst (Fullscreen.feed keyString Quit m l1)) l2),
     snd (Fullscreen.feed keyString Quit m l1)
     ++ snd (Fullscreen.feed keyString Quit
                             (fst (Fullscreen.feed keyString Quit m l1)) l2)).
Proof.
  induction l1 as [|message rest IH]; intros m.
  - simpl. now destruct (Fullscreen.feed keyString Quit m l2).
  - cbn [app Fullscreen.feed].
    destruct (Fullscreen.Update keyString Quit m message) as [m' cmd].
    rewrite IH.
    destruct (Fullscreen.feed keyString Quit m' rest) as [m'' cmds].
    reflexivity.
Qed.

(** The countdown: from a model [m > 0], [m] tick messages in a row bring the
    model to zero; [Update] answers each of the first [m - 1] with the
    command for the next tick, and the last with [Quit]. *)
Theorem Fullscreen_countdown
        (messages : list (option (Msg World (Fullscreen.AppMsg Key))))
        (m : Fullscreen.model) :
  forallb (@Fullscreen.isTick World Key) messages = true ->
  0 < m -> m = Z.of_nat (length messages) -> m < 2 ^ 63 ->
  Fullscreen.feed keyString Quit m messages
  = (0, repeat (@Fullscreen.tick World clock Key) (length messages - 1)
        ++ [Quit]).
Proof.
  intros Hall Hpos Hm Hmax.
  assert (Hne : messages <> []) by (intros ->; simpl in Hm; lia).
  destruct (exists_last Hne) as (init & last & ->).
  rewrite forallb_app in Hall. apply andb_prop in Hall as [Hall Hlast].
  rewrite length_app, Nat2Z.inj_add in Hm. simpl in Hm.
  rewrite length_app. simpl length.
  replace (length init + 1 - 1)%nat with (length init) by lia.
  rewrite feed_app, (feed_ticks init Hall) by lia.
  replace (m - Z.of_nat (length init)) with 1 by lia.
  simpl in Hlast. rewrite andb_true_r in Hlast.
  destruct last as [[[key|t]| | | |]|]; try discriminate.
  reflexivity.
Qed.

(** A model at zero or below quits at the first tick, one lower; except the
    smallest [int], where the decrement wraps around to the largest and
    [Update] asks for another tick. *)
Theorem Fullscreen_tick_nonpositive (m : Fullscreen.model) (t : Time) :
  - 2 ^ 63 <= m -> m <= 0 ->
  Fullscreen.Update keyString Quit m (Some (UserMsg (Fullscreen.tickMsg Key t)))
  = if m =? - 2 ^ 63
    then (2 ^ 63 - 1, Fullscreen.tick Key)
    else (m - 1, Quit).
Proof.
  intros Hmin Hle. cbn [Fullscreen.Update].
  destruct (Z.eqb_spec m (- 2 ^ 63)) as [->|Hne].
  - reflexivity.
  - rewrite wrapInt_small by lia.
    destruct (Z.leb_spec (m - 1) 0); [reflexivity | lia].
Qed.

End Countdown.

(** ** The added properties on the simulated clock *)

(** Witness: [Every] with a duration of minus one second. *)
Lemma Every_nonpositive_witness :
  minDuration <= - 10 ^ 9 /\ - 10 ^ 9 <= 0
  /\ ((forall n : Time, everyDelay n (- 10 ^ 9) = - 10 ^ 9)
      /\ invoke (Every (- 10 ^ 9) Sim.tickMsg) (7 * 10 ^ 9)
         = invoke (Tick (- 10 ^ 9) Sim.tickMsg)
                  (snd (time_Now (7 * 10 ^ 9)))).
Proof.
  split; [unfold minDuration; lia|]. split; [lia|].
  apply (@Every_nonpositive Sim.World Sim.Payload Sim.clock (- 10 ^ 9)
           Sim.tickMsg (7 * 10 ^ 9)).
  - unfold minDuration; lia.
  - lia.
Defined.

(** Witness: one second, 0.3 s and 0.85 s into the same second. *)
Lemma Every_same_period_witness :
  0 < 10 ^ 9 /\ 10 ^ 9 <= maxDuration
  /\ wall (Sim.at_ (7 * 10 ^ 9 + 3 * 10 ^ 8)) / 10 ^ 9
     = wall (mkTime (7 * 10 ^ 9 + 85 * 10 ^ 7) None) / 10 ^ 9
  /\ (wall (Sim.at_ (7 * 10 ^ 9 + 3 * 10 ^ 8))
      + everyDelay (Sim.at_ (7 * 10 ^ 9 + 3 * 10 ^ 8)) (10 ^ 9)
      = wall (mkTime (7 * 10 ^ 9 + 85 * 10 ^ 7) None)
        + everyDelay (mkTime (7 * 10 ^ 9 + 85 * 10 ^ 7) None) (10 ^ 9)
      /\ wall (Sim.at_ (7 * 10 ^ 9 + 3 * 10 ^ 8))
         + everyDelay (Sim.at_ (7 * 10 ^ 9 + 3 * 10 ^ 8)) (10 ^ 9)
         = (wall (Sim.at_ (7 * 10 ^ 9 + 3 * 10 ^ 8)) / 10 ^ 9 + 1) * 10 ^ 9).
Proof.
  split; [lia|]. split; [unfold maxDuration; lia|].
  split; [reflexivity|].
  apply (@Every_same_period (10 ^ 9) (Sim.at_ (7 * 10 ^ 9 + 3 * 10 ^ 8))
           (mkTime (7 * 10 ^ 9 + 85 * 10 ^ 7) None)).
  - lia.
  - unfold maxDuration; lia.
  - reflexivity.
Defined.

(** Witness: the countdown from 3, with keys named by their strings and a
    command that yields nothing in the place of [tea.Quit]. *)
Lemma Fullscreen_countdown_witness :
  forallb (@Fullscreen.isTick Sim.World string)
          [Some (UserMsg (Fullscreen.tickMsg string (Sim.at_ 1)));
           Some (UserMsg (Fullscreen.tickMsg string (Sim.at_ 2)));
           Some (UserMsg (Fullscreen.tickMsg string (Sim.at_ 3)))] = true
  /\ 0 < 3
  /\ 3 = Z.of_nat 3
  /\ 3 < 2 ^ 63
  /\ Fullscreen.feed (fun key : string => key) (Some (fun w => (None, w))) 3
       [Some (UserMsg (Fullscreen.tickMsg string (Sim.at_ 1)));
        Some (UserMsg (Fullscreen.tickMsg string (Sim.at_ 2)));
        Some (UserMsg (Fullscreen.tickMsg string (Sim.at_ 3)))]
     = (0, repeat (@Fullscreen.tick Sim.World Sim.clock string) (3 - 1)
           ++ [Some (fun w => (None, w))]).
Proof.
  split; [reflexivity|]. split; [lia|]. split; [reflexivity|].
  split; [lia|].
  apply (@Fullscreen_countdown Sim.World Sim.clock string
           (fun key : string => key) (Some (fun w => (None, w)))
           [Some (UserMsg (Fullscreen.tickMsg string (Sim.at_ 1)));
            Some (UserMsg (Fullscreen.tickMsg string (Sim.at_ 2)));
            Some (UserMsg (Fullscreen.tickMsg string (Sim.at_ 3)))] 3).
  - reflexivity.
  - lia.
  - reflexivity.
  - lia.
Defined.

(** Witness: a tick at model 0. *)
Lemma Fullscreen_tick_nonpositive_witness :
  - 2 ^ 63 <= 0 /\ 0 <= 0
  /\ Fullscreen.Update (World:=Sim.World) (fun key : string => key)
       (Some (fun w => (None, w))) 0
       (Some (UserMsg (Fullscreen.tickMsg string (Sim.at_ 1))))
     = (if 0 =? - 2 ^ 63
        then (2 ^ 63 - 1, Fullscreen.tick string)
        else (0 - 1, Some (fun w => (None, w)))).
Proof.
  split; [lia|]. split; [lia|].
  apply (@Fullscreen_tick_nonpositive Sim.World Sim.clock string
           (fun key : string => key) (Some (fun w => (None, w))) 0
           (Sim.at_ 1)); lia.
Defined.
